(** * Exploratory-Data-Analysis: the data-preparation core of [app.py]

    A shallow embedding of the pandas operations that [app.py] performs on
    its process-wide feature table [X] and on the derived table
    [X_no_outliers], together with the Flask route functions that drive
    them, written as state transformers.

    Numbers.  pandas stores the feature columns as float64.  The model
    keeps the structure of the float computation (missing entries are NaN,
    NaN and division by zero propagate, every comparison with NaN is
    false) but computes with exact rationals ([Qc]), so rounding is not
    modelled.  The standard deviation is a square root; the model carries
    its square (the sample variance, [ddof = 1], the pandas default) and
    compares squares: for a positive variance [v],
    [|d / sqrt v| < 3] exactly when [d * d / v < 9]
    (lemma [abs_z_lt_3_iff_sq] below, over the reals). *)

From Stdlib Require Import QArith Qcanon Qreals Reals Lra Psatz Lia String.
From stdpp Require Import base list sets numbers strings pretty.

Local Open Scope Qc_scope.
#[local] Set Warnings "-clear-no-such-hyp".

(** ** Cells, columns and frames *)

(** A cell of the feature table: a number, the missing marker NaN, or a
    non-numeric (object) value. *)
Inductive cell : Type :=
  | Num (q : Qc)
  | NaN
  | Str (s : string).

(** Column dtypes, as far as [select_dtypes(include=[np.number])] tells
    them apart. *)
Inductive dtype : Type :=
  | Float64
  | Object.

#[global] Instance cell_eq_dec : EqDecision cell.
Proof. solve_decision. Defined.

#[global] Instance dtype_eq_dec : EqDecision dtype.
Proof. solve_decision. Defined.

(** A row is the list of its cells, in column order. *)
Abbreviation row := (list cell) (only parsing).

(** A DataFrame: the dtype of each column and the rows in index order. *)
Record DataFrame : Type := mkDataFrame {
  dtypes : list dtype;
  rows : list row
}.

(** A float cell: [None] is NaN. *)
Abbreviation float := (option Qc) (only parsing).

(** A numeric frame (what [select_dtypes] returns): its number of columns
    and its rows of float cells.  The width is kept apart from the rows so
    that a frame with no rows still has its columns. *)
Record NumFrame : Type := mkNumFrame {
  width : nat;
  body : list (list float)
}.

(** ** [DataFrame.duplicated] and [DataFrame.drop_duplicates] *)

(** [duplicated_from seen l]: the mask of [X.duplicated()] (keep='first')
    for the rows [l], when the rows [seen] come before them: a row is
    marked when an equal row occurred earlier.  pandas compares rows cell
    by cell and counts NaN equal to NaN here. *)
Fixpoint duplicated_from (seen l : list row) : list bool :=
  match l with
  | [] => []
  | r :: l' => bool_decide (r ∈ seen) :: duplicated_from (r :: seen) l'
  end.

Definition duplicated (l : list row) : list bool := duplicated_from [] l.

(** Boolean indexing [X[mask]]: the rows whose mask entry is true. *)
Fixpoint select_mask {A : Type} (l : list A) (mask : list bool) : list A :=
  match l, mask with
  | x :: l', b :: mask' =>
      if b then x :: select_mask l' mask' else select_mask l' mask'
  | _, _ => []
  end.

(** The rows of [l] that are not marked, when [seen] came before. *)
Definition drop_from (seen l : list row) : list row :=
  select_mask l (map negb (duplicated_from seen l)).

(** [X.drop_duplicates()] is [X[~X.duplicated()]]. *)
Definition drop_duplicates_rows (l : list row) : list row :=
  select_mask l (map negb (duplicated l)).

Definition drop_duplicates (df : DataFrame) : DataFrame :=
  mkDataFrame (dtypes df) (drop_duplicates_rows (rows df)).

(** [X.duplicated().sum()] *)
Definition count_true (mask : list bool) : nat :=
  length (filter (fun b : bool => b = true) mask).

(** ** Column statistics *)

(** The non-missing values of a column ([skipna=True]). *)
Definition dropna (col : list float) : list Qc := omap (fun x : float => x) col.

Definition total (l : list Qc) : Qc := foldr Qcplus 0 l.

Definition Qc_of_nat (n : nat) : Qc := Qc_of_Z (Z.of_nat n).

(** [Series.mean()]: NaN when the column has no value. *)
Definition mean (col : list float) : float :=
  let xs := dropna col in
  match xs with
  | [] => None
  | _ => Some (total xs / Qc_of_nat (length xs))
  end.

(** Sum of squared deviations from [m]. *)
Definition ssqdm (m : Qc) (xs : list Qc) : Qc :=
  total (map (fun x => (x - m) * (x - m)) xs).

(** [Series.var()] with [ddof = 1]: NaN when fewer than two values. *)
Definition var (col : list float) : float :=
  let xs := dropna col in
  match xs with
  | [] | [_] => None
  | _ => Some (ssqdm (total xs / Qc_of_nat (length xs)) xs
               / Qc_of_nat (length xs - 1))
  end.

(** ** The numeric projection [X.select_dtypes(include=[np.number])] *)

Definition to_float (c : cell) : float :=
  match c with
  | Num v => Some v
  | NaN | Str _ => None
  end.

(** The cells of a row that sit in numeric columns. *)
Fixpoint select_row (ds : list dtype) (r : row) : list float :=
  match ds, r with
  | Float64 :: ds', c :: r' => to_float c :: select_row ds' r'
  | Object :: ds', _ :: r' => select_row ds' r'
  | _, _ => []
  end.

Definition select_dtypes_number (df : DataFrame) : NumFrame :=
  mkNumFrame (length (filter (fun d => d = Float64) (dtypes df)))
             (map (select_row (dtypes df)) (rows df)).

(** Cell [j] of a numeric row, and column [j] of a numeric table. *)
Definition at_col (j : nat) (r : list float) : float := default None (r !! j).

Definition column (j : nat) (b : list (list float)) : list float :=
  map (at_col j) b.

(** [numeric_X.mean()] and the square of [numeric_X.std()], one entry per
    column. *)
Definition means (N : NumFrame) : list float :=
  map (fun j => mean (column j (body N))) (seq 0 (width N)).

Definition vars (N : NumFrame) : list float :=
  map (fun j => var (column j (body N))) (seq 0 (width N)).

(** ** z-scores and the outlier filter *)

(** One cell of [np.abs((numeric_X - numeric_X.mean()) / numeric_X.std())],
    squared.  The result is [None] when the float result is not a finite
    number: the cell or a statistic is NaN, or the standard deviation is
    zero (the quotient is then 0/0 = NaN, or an infinity). *)
Definition zscore_sq (x m v : float) : float :=
  match x, m, v with
  | Some x, Some m, Some v =>
      if decide (v = 0) then None else Some ((x - m) * (x - m) / v)
  | _, _, _ => None
  end.

Definition z_cell (N : NumFrame) (r : list float) (j : nat) : float :=
  zscore_sq (at_col j r) (at_col j (means N)) (at_col j (vars N)).

Definition z_row (N : NumFrame) (r : list float) : list float :=
  map (z_cell N r) (seq 0 (width N)).

Definition z_scores (N : NumFrame) : list (list float) :=
  map (z_row N) (body N).

(** [z < 3] on the absolute z-score, through its square; false on a
    non-finite z-score (NaN compares false, an infinity is not below 3). *)
Definition lt_3 (zsq : float) : bool :=
  match zsq with
  | Some s => bool_decide (s < Qc_of_Z 9)
  | None => false
  end.

(** [z >= 3] as a float comparison: false on NaN as well. *)
Definition ge_3 (zsq : float) : bool :=
  match zsq with
  | Some s => bool_decide (Qc_of_Z 9 ≤ s)
  | None => false
  end.


(** [(z_scores < 3).all(axis=1)] *)
Definition all_lt_3 (N : NumFrame) : list bool :=
  map (forallb lt_3) (z_scores N).

(** [numeric_X[(z_scores < 3).all(axis=1)]] *)
Definition without_outliers (N : NumFrame) : NumFrame :=
  mkNumFrame (width N) (select_mask (body N) (all_lt_3 N)).

(** ** [fillna] with the column means *)

(** Column [j] of the feature table, as floats. *)
Definition feature_column (j : nat) (l : list row) : list float :=
  map (fun r : row => to_float (default NaN (r !! j))) l.

(** [X[numerical_cols].mean()]: a mean for each numeric column. *)
Definition column_means (df : DataFrame) : list float :=
  imap (fun j d => match d with
                   | Float64 => mean (feature_column j (rows df))
                   | Object => None
                   end) (dtypes df).

(** [fillna] on one cell of a numeric column: a missing cell takes the
    fill value of its column unless that value is itself NaN. *)
Definition fillna_cell (d : dtype) (m : float) (c : cell) : cell :=
  match d, c, m with
  | Float64, NaN, Some v => Num v
  | _, _, _ => c
  end.

Definition fillna_row (ds : list dtype) (ms : list float) (r : row) : row :=
  imap (fun j c => fillna_cell (default Object (ds !! j))
                               (default None (ms !! j)) c) r.

(** [X[numerical_cols] = X[numerical_cols].fillna(X[numerical_cols].mean())] *)
Definition fillna_mean (df : DataFrame) : DataFrame :=
  mkDataFrame (dtypes df)
              (map (fillna_row (dtypes df) (column_means df)) (rows df)).

(** [X.isnull().sum()] for column [j]. *)
Definition isnull_sum (j : nat) (l : list row) : nat :=
  length (filter (fun r : row => r !! j = Some NaN) l).

(** ** Pearson correlation, [DataFrame.corr()] *)

(** The observations present in both columns (pairwise deletion). *)
Fixpoint complete_pairs (xs ys : list float) : list (Qc * Qc) :=
  match xs, ys with
  | Some x :: xs', Some y :: ys' => (x, y) :: complete_pairs xs' ys'
  | _ :: xs', _ :: ys' => complete_pairs xs' ys'
  | _, _ => []
  end.

Definition covsum (mx my : Qc) (ps : list (Qc * Qc)) : Qc :=
  total (map (fun p : Qc * Qc => (p.1 - mx) * (p.2 - my)) ps).

(** The correlation coefficient from the complete pairs of two columns:
    NaN when there is no pair ([min_periods = 1]) or when the divisor
    [sqrt (ssx * ssy)] is zero. *)
Definition pearson_pairs (ps : list (Qc * Qc)) : option R :=
  let nobs := length ps in
  let mx := total (map fst ps) / Qc_of_nat nobs in
  let my := total (map snd ps) / Qc_of_nat nobs in
  let ssx := ssqdm mx (map fst ps) in
  let ssy := ssqdm my (map snd ps) in
  if decide (nobs < 1)%nat then None
  else if decide (ssx * ssy = 0) then None
  else Some (Q2R (covsum mx my ps) / sqrt (Q2R (ssx * ssy)%Qc))%R.

Definition pearson (xs ys : list float) : option R :=
  pearson_pairs (complete_pairs xs ys).

Definition corr (N : NumFrame) : list (list (option R)) :=
  map (fun i => map (fun j => pearson (column i (body N)) (column j (body N)))
                    (seq 0 (width N)))
      (seq 0 (width N)).

(** Entry [(i, j)] of a matrix. *)
Definition entry (M : list (list (option R))) (i j : nat) : option (option R) :=
  M !! i ≫= fun r => r !! j.

(** ** The process-wide state and the routes *)

(** The module globals: the feature table [X], the target series [y] and
    the derived table [X_no_outliers] ([None] is Python's [None], its
    value before the first recomputation). *)
Record State : Type := mkState {
  X : DataFrame;
  y : list string;
  X_no_outliers : option NumFrame
}.

(** What a route hands back: an HTML page, a rendered heat map of a
    matrix, or the failure of the handler. *)
Inductive response : Type :=
  | Html (page : string)
  | Heatmap (m : list (list (option R)))
  | ServerError.

(** [remove_outliers()]: only [X_no_outliers] is assigned.  The unused
    local [outliers = np.where(z_scores > 3)] has no effect. *)
Definition remove_outliers (st : State) : State :=
  let numeric_X := select_dtypes_number (X st) in
  mkState (X st) (y st) (Some (without_outliers numeric_X)).

(** [@app.before_request] *)
Definition before_request (st : State) : State := remove_outliers st.

(** [/handle_missing_values] *)
Definition handle_missing_values (st : State) : State * response :=
  (mkState (fillna_mean (X st)) (y st) (X_no_outliers st),
   Html "<html><body><p>Missing values handled</p></body></html>").

(** [/remove_duplicates]: the count of duplicated rows is computed into a
    local and the page returned is a fixed string. *)
Definition remove_duplicates (st : State) : State * response :=
  let original_duplicates_count := count_true (duplicated (rows (X st))) in
  let X_no_duplicates := drop_duplicates (X st) in
  (mkState (drop_duplicates (X st)) (y st) (X_no_outliers st),
   Html "<html><body><p>Duplicates removed</p></body></html>").

(** The local [original_duplicates_count] of [/remove_duplicates]. *)
Definition original_duplicates_count (st : State) : nat :=
  count_true (duplicated (rows (X st))).

(** The local [removed_outliers_count] of [/outlier_removal]. *)
Definition removed_outliers_count (st : State) : nat :=
  let numeric_X := select_dtypes_number (X st) in
  (length (body numeric_X) - length (body (without_outliers numeric_X)))%nat.

(** [/outlier_removal] *)
Definition outlier_removal (st : State) : State * response :=
  let numeric_X := select_dtypes_number (X st) in
  let X_no_outliers' := without_outliers numeric_X in
  let removed_outliers_count :=
    (length (body numeric_X) - length (body X_no_outliers'))%nat in
  (mkState (X st) (y st) (Some X_no_outliers'),
   Html ("<html><body><p>Number of outliers removed: "
         +:+ pretty removed_outliers_count +:+ "</p></body></html>")).



(** A request: the [before_request] hook, then the route. *)
Definition serve (route : State -> State * response) (st : State)
  : State * response :=
  route (before_request st).

(** ** Example tables *)

Definition num (z : Z) : cell := Num (Qc_of_Z z).

(** A frame of numeric columns from integer entries. *)
Definition frame_of (ncols : nat) (l : list (list Z)) : DataFrame :=
  mkDataFrame (replicate ncols Float64) (map (map num) l).

Definition state_of (df : DataFrame) : State := mkState df [] None.


(** One column, one row. *)
Definition single_table : DataFrame := frame_of 1 [[1]]%Z.

(** The table [{a:1,b:10},{a:2,b:20},{a:2,b:20},{a:1000,b:20}]. *)
Definition scenario_table : DataFrame :=
  frame_of 2 [[1; 10]; [2; 20]; [2; 20]; [1000; 20]]%Z.



(** One column [1, NaN, 3]. *)
Definition gap_table : DataFrame :=
  mkDataFrame [Float64] [[num 1]; [NaN]; [num 3]].

(** One column with no value at all. *)
Definition empty_column_table : DataFrame :=
  mkDataFrame [Float64] [[NaN]; [NaN]].

(** ** Start-up, the missing-value counts and the scatter pairs *)

(** The module body run at import: the features become [X], missing
    numeric entries are filled with the column means, duplicated rows are
    dropped, the targets become [y] and [X_no_outliers] starts as
    [None]. *)
Definition load (features : DataFrame) (target : list string) : State :=
  let X0 := fillna_mean features in
  let X1 := drop_duplicates X0 in
  mkState X1 target None.

(** [X.isnull().sum()] of [/missing_values]: one count per column. *)
Definition missing_values_counts (df : DataFrame) : list nat :=
  imap (fun j _ => isnull_sum j (rows df)) (dtypes df).

(** The column pairs for which [/bivariate_scatterplot] calls
    [ax.scatter]: the two nested [enumerate] loops with the test
    [i < j], over any list of column labels. *)
Definition scatter_pairs {A : Type} (cols : list A) : list (A * A) :=
  mjoin (imap (fun i col1 =>
           mjoin (imap (fun j col2 =>
                    if bool_decide (i < j)%nat then [(col1, col2)] else [])
                  cols))
         cols).

(** [numerical_cols]: the positions of the numeric columns. *)
Definition numerical_cols (df : DataFrame) : list nat :=
  mjoin (imap (fun j d => match d with Float64 => [j] | Object => [] end)
              (dtypes df)).


(** One object column, two rows. *)
Definition object_table : DataFrame :=
  mkDataFrame [Object] [[Str "M"]; [Str "B"]].

(** * Properties *)

Local Close Scope Qc_scope.

(** ** Boolean indexing *)

Section select_mask.
Context {A : Type}.
Implicit Types (l : list A) (mask : list bool).

Lemma select_mask_sublist l mask : sublist (select_mask l mask) l.
Proof.
  revert mask; induction l as [|x l IH]; intros [|[] mask]; simpl;
    try constructor; auto using sublist_nil_l.
Qed.

Lemma select_mask_length l mask : length (select_mask l mask) ≤ length l.
Proof. apply sublist_length, select_mask_sublist. Qed.

Lemma select_mask_app l1 l2 m1 m2 :
  length l1 = length m1 →
  select_mask (l1 ++ l2) (m1 ++ m2) = select_mask l1 m1 ++ select_mask l2 m2.
Proof.
  revert m1; induction l1 as [|x l1 IH]; intros [|[] m1] Hlen;
    simplify_eq/=; try done; by rewrite IH.
Qed.

Lemma select_mask_all_true l : select_mask l (replicate (length l) true) = l.
Proof. induction l; simpl; by f_equal. Qed.

Lemma select_mask_all_false l mask :
  Forall (fun b => b = false) mask → select_mask l mask = [].
Proof.
  intros Hm; revert l; induction Hm as [|b mask -> _ IH]; intros [|x l];
    simpl; auto.
Qed.

(** Membership in [l[mask]], by position. *)
Lemma elem_of_select_mask l mask x :
  x ∈ select_mask l mask ↔ ∃ i, l !! i = Some x ∧ mask !! i = Some true.
Proof.
  revert mask; induction l as [|a l IH]; intros [|b mask]; simpl.
  - rewrite elem_of_nil. split; [done|]. by intros (i & ? & _).
  - rewrite elem_of_nil. split; [done|]. by intros (i & ? & _).
  - rewrite elem_of_nil. split; [done|]. by intros (i & _ & ?).
  - destruct b.
    + rewrite elem_of_cons, IH. split.
      * intros [->|(i & ? & ?)]; [by exists 0|by exists (S i)].
      * intros ([|i] & ? & ?); simplify_eq/=; eauto.
    + rewrite IH. split.
      * intros (i & ? & ?). by exists (S i).
      * intros ([|i] & ? & ?); simplify_eq/=; eauto.
Qed.
End select_mask.

(** ** Duplicates *)

Section dedup.
Implicit Types (seen l : list row) (r x : row).

Lemma duplicated_from_length seen l :
  length (duplicated_from seen l) = length l.
Proof. revert seen; induction l; intros; simpl; by f_equal. Qed.

Lemma drop_from_cons seen r l :
  drop_from seen (r :: l)
  = if bool_decide (r ∈ seen) then drop_from (r :: seen) l
    else r :: drop_from (r :: seen) l.
Proof. unfold drop_from; simpl. by destruct (bool_decide _). Qed.

Lemma elem_of_drop_from seen l x :
  x ∈ drop_from seen l ↔ x ∈ l ∧ x ∉ seen.
Proof.
  revert seen; induction l as [|r l IH]; intros seen.
  - unfold drop_from; simpl. set_solver.
  - rewrite drop_from_cons. case_bool_decide.
    + rewrite IH. set_solver.
    + rewrite elem_of_cons, IH. destruct (decide (x = r)); set_solver.
Qed.

Lemma drop_from_NoDup seen l : NoDup (drop_from seen l).
Proof.
  revert seen; induction l as [|r l IH]; intros seen.
  - constructor.
  - rewrite drop_from_cons. case_bool_decide; [done|].
    constructor; [|done]. rewrite elem_of_drop_from. set_solver.
Qed.

(** The mask of a concatenation: the second part sees the first. *)
Lemma duplicated_from_app seen l1 l2 :
  duplicated_from seen (l1 ++ l2)
  = duplicated_from seen l1 ++ duplicated_from (reverse l1 ++ seen) l2.
Proof.
  revert seen; induction l1 as [|r l1 IH]; intros seen; [done|].
  simpl. rewrite IH, reverse_cons, <-(assoc_L (++)). done.
Qed.

(** Nothing is marked in a duplicate-free list none of whose rows was
    seen before. *)
Lemma duplicated_from_fresh seen l :
  NoDup l → (∀ x, x ∈ l → x ∉ seen) →
  duplicated_from seen l = replicate (length l) false.
Proof.
  intros Hnd; revert seen; induction Hnd as [|r l Hr _ IH]; intros seen Hs;
    [done|].
  simpl. rewrite bool_decide_eq_false_2 by set_solver.
  f_equal. apply IH. set_solver.
Qed.

Lemma count_true_replicate_false n : count_true (replicate n false) = 0.
Proof.
  induction n as [|n IH]; [done|].
  unfold count_true in *; simpl. by rewrite filter_cons_False.
Qed.
End dedup.

Section dedup_route.
Implicit Types (l : list row) (r : row) (st : State).

Lemma duplicated_lookup l i r :
  l !! i = Some r →
  duplicated l !! i = Some (bool_decide (r ∈ take i l)).
Proof.
  intros Hi. unfold duplicated.
  rewrite <-(take_drop_middle l i r Hi) at 1.
  rewrite duplicated_from_app; simpl.
  assert (length (duplicated_from [] (take i l)) = i) as Hlen.
  { rewrite duplicated_from_length, length_take.
    apply lookup_lt_Some in Hi. lia. }
  rewrite lookup_app_r by lia.
  rewrite Hlen, Nat.sub_diag; simpl. f_equal.
  apply bool_decide_ext. rewrite (right_id_L [] (++)). apply elem_of_reverse.
Qed.

Lemma drop_duplicates_rows_snoc l r :
  drop_duplicates_rows (l ++ [r])
  = if bool_decide (r ∈ l) then drop_duplicates_rows l
    else drop_duplicates_rows l ++ [r].
Proof.
  unfold drop_duplicates_rows, duplicated.
  rewrite duplicated_from_app, map_app, select_mask_app
    by (by rewrite length_map, duplicated_from_length).
  simpl. rewrite (right_id_L [] (++) (reverse l)).
  rewrite (bool_decide_ext (r ∈ reverse l) (r ∈ l)) by apply elem_of_reverse.
  destruct (bool_decide (r ∈ l)); simpl; [by rewrite (right_id_L [] (++))|done].
Qed.

Lemma drop_duplicates_rows_fixed l :
  NoDup l → drop_duplicates_rows l = l ∧ count_true (duplicated l) = 0.
Proof.
  intros Hnd. unfold drop_duplicates_rows, duplicated.
  rewrite (duplicated_from_fresh [] l Hnd) by set_solver.
  split; [|apply count_true_replicate_false].
  rewrite <-(select_mask_all_true l) at 3. f_equal.
  induction (length l); simpl; by f_equal.
Qed.

(** C5.  [/remove_duplicates] replaces [X] by its rows that are not
    marked by [duplicated()], in their order; a row is marked exactly
    when an equal row stands before it (so a row appended to a table
    survives exactly when it is new); the surviving rows are a
    subsequence of the old ones with the same members, no two of them
    are equal and they are at most as many; a second call finds no
    duplicate and leaves the state as it is. *)
Theorem remove_duplicates_keeps_first st :
  let l := rows (X st) in
  let st' := (remove_duplicates st).1 in
  let l' := rows (X st') in
  dtypes (X st') = dtypes (X st)
  ∧ l' = drop_duplicates_rows l
  ∧ (∀ i r, l !! i = Some r →
       duplicated l !! i = Some (bool_decide (r ∈ take i l)))
  ∧ (∀ l0 r, drop_duplicates_rows (l0 ++ [r])
       = if bool_decide (r ∈ l0) then drop_duplicates_rows l0
         else drop_duplicates_rows l0 ++ [r])
  ∧ sublist l' l
  ∧ (∀ r, r ∈ l' ↔ r ∈ l)
  ∧ NoDup l'
  ∧ length l' ≤ length l
  ∧ original_duplicates_count st' = 0
  ∧ (remove_duplicates st').1 = st'.
Proof.
  intros l st' l'.
  assert (NoDup l') as Hnd by apply drop_from_NoDup.
  split_and!; try done.
  - apply duplicated_lookup.
  - apply drop_duplicates_rows_snoc.
  - apply select_mask_sublist.
  - intros r. unfold l'; simpl.
    change (drop_duplicates_rows (rows (X st))) with (drop_from [] l).
    rewrite elem_of_drop_from. set_solver.
  - apply select_mask_length.
  - by apply drop_duplicates_rows_fixed.
  - unfold st', remove_duplicates, drop_duplicates; simpl.
    apply drop_duplicates_rows_fixed in Hnd as [Hfix _].
    unfold l', st', remove_duplicates, drop_duplicates in Hfix; simpl in Hfix.
    by rewrite Hfix.
Qed.

End dedup_route.

(** ** Rationals and reals *)

Section reals.
Local Open Scope R_scope.
Implicit Types (a b x m v : Qc).

Lemma Q2R_Q2Qc (c : Q) : Q2R (Q2Qc c) = Q2R c.
Proof. apply Qeq_eqR, Qred_correct. Qed.




Lemma Q2R_Qcmult a b : Q2R (a * b)%Qc = Q2R a * Q2R b.
Proof. unfold Qcmult. by rewrite Q2R_Q2Qc, Q2R_mult. Qed.




Lemma Qcle_Rle a b : (a ≤ b)%Qc ↔ Q2R a <= Q2R b.
Proof. split; [apply Qle_Rle|apply Rle_Qle]. Qed.



End reals.

(** ** Column statistics *)

Section statistics.
Local Open Scope Qc_scope.
Implicit Types (c m v : Qc) (xs : list Qc) (col : list float).

Lemma Qc_square_nonneg c : 0 ≤ c * c.
Proof.
  apply Qcle_Rle. rewrite Q2R_Qcmult. change (Q2R 0%Qc) with (Q2R 0).
  rewrite RMicromega.Q2R_0. nra.
Qed.

Lemma total_nonneg xs : Forall (fun x => 0 ≤ x) xs → 0 ≤ total xs.
Proof.
  induction 1 as [|x xs Hx _ IH]; simpl; [done|].
  by apply Qcplus_nonneg_nonneg.
Qed.

Lemma ssqdm_nonneg m xs : 0 ≤ ssqdm m xs.
Proof.
  apply total_nonneg, Forall_fmap, Forall_true. intros x; simpl.
  apply Qc_square_nonneg.
Qed.

Lemma Qc_of_nat_pos n : (0 < n)%nat → 0 < Qc_of_nat n.
Proof.
  intros Hn. unfold Qc_of_nat. rewrite <-Z2Qc_inj_0.
  apply (proj1 (Z2Qc_inj_lt 0 (Z.of_nat n))). lia.
Qed.

Lemma Qc_of_nat_S n : Qc_of_nat (S n) = Qc_of_nat n + 1.
Proof.
  unfold Qc_of_nat. by rewrite Nat2Z.inj_succ, <-Z.add_1_r, Z2Qc_inj_add, Z2Qc_inj_1.
Qed.




Lemma total_replicate n c : total (replicate n c) = Qc_of_nat n * c.
Proof.
  induction n as [|n IH]; simpl.
  - change (Qc_of_nat 0) with (Qc_of_Z 0). rewrite Z2Qc_inj_0. ring.
  - rewrite IH, Qc_of_nat_S. ring.
Qed.

Lemma ssqdm_replicate n c : ssqdm c (replicate n c) = 0.
Proof.
  unfold ssqdm. induction n as [|n IH]; simpl; [done|]. rewrite IH. ring.
Qed.

(** A column whose values are all the same, with at least two of them,
    has variance (and standard deviation) zero. *)
Lemma var_constant col c :
  Forall (fun x => x = c) (dropna col) → (2 ≤ length (dropna col))%nat →
  var col = Some 0.
Proof.
  intros Hall Hlen. unfold var.
  assert (dropna col = replicate (length (dropna col)) c) as Hrep.
  { clear Hlen. induction Hall as [|x xs -> _ IH]; simpl; by f_equal. }
  destruct (dropna col) as [|x [|x' xs]] eqn:Hxs; simpl in Hlen; try lia.
  f_equal. rewrite Hrep, total_replicate, length_replicate.
  assert (Qc_of_nat (length (x :: x' :: xs)) ≠ 0) as Hn.
  { apply not_symmetry, Qclt_not_eq, Qc_of_nat_pos. simpl; lia. }
  replace (Qc_of_nat (length (x :: x' :: xs)) * c
           / Qc_of_nat (length (x :: x' :: xs))) with c by (by field).
  rewrite ssqdm_replicate. unfold Qcdiv. ring.
Qed.


Lemma at_col_vars N j :
  (j < width N)%nat → at_col j (vars N) = var (column j (body N)).
Proof.
  intros Hj. unfold at_col, vars.
  by rewrite list_lookup_fmap, lookup_seq_lt.
Qed.
End statistics.

(** ** The outlier filter *)

Section outliers.
Implicit Types (N : NumFrame) (r : list float) (z : float) (st : State).

Lemma lt_3_false z : lt_3 z = false ↔ z = None ∨ ge_3 z = true.
Proof.
  destruct z as [s|]; simpl; [|naive_solver].
  rewrite bool_decide_eq_false, bool_decide_eq_true, Qcle_ngt.
  naive_solver.
Qed.

Lemma lt_3_ge_3 z : lt_3 z = true → ge_3 z = false.
Proof.
  destruct z as [s|]; simpl; [|done].
  rewrite bool_decide_eq_true, bool_decide_eq_false, Qcle_ngt. naive_solver.
Qed.




Lemma all_lt_3_lookup N i r :
  body N !! i = Some r → all_lt_3 N !! i = Some (forallb lt_3 (z_row N r)).
Proof.
  intros Hi. unfold all_lt_3, z_scores. by rewrite !list_lookup_fmap, Hi.
Qed.

Lemma row_kept N r :
  forallb lt_3 (z_row N r) = true ↔
  ∀ j, j < width N → lt_3 (z_cell N r j) = true.
Proof.
  rewrite <-Is_true_true, forallb_True. unfold z_row.
  rewrite Forall_fmap, Forall_seq. simpl.
  split; intros H j Hj; [apply Is_true_true|apply Is_true_true_2];
    apply H; lia.
Qed.

Lemma row_dropped N r :
  forallb lt_3 (z_row N r) = false ↔
  ∃ j, j < width N ∧ (z_cell N r j = None ∨ ge_3 (z_cell N r j) = true).
Proof.
  rewrite <-not_true_iff_false, row_kept. split.
  - intros Hn.
    destruct (decide (Exists (fun j => lt_3 (z_cell N r j) = false)
                             (seq 0 (width N)))) as [He|He].
    + apply Exists_exists in He as (j & Hj & Hz).
      apply elem_of_seq in Hj. exists j. split; [lia|by apply lt_3_false].
    + destruct Hn. intros j Hj. apply not_Exists_Forall in He; [|apply _].
      rewrite Forall_seq in He. specialize (He j ltac:(lia)); simpl in He.
      by destruct (lt_3 (z_cell N r j)).
  - intros (j & Hj & Hz) Hall. apply lt_3_false in Hz.
    specialize (Hall j Hj). congruence.
Qed.
End outliers.

Section outlier_routes.
Implicit Types (N : NumFrame) (r : list float) (st : State).









(** C7.  [remove_outliers] computes [X_no_outliers] from [X] alone and
    overwrites it: a second run, with [X] untouched in between, gives
    the same state, whatever [X_no_outliers] held before.  The same
    holds for the hook [before_request] and for the route
    [/outlier_removal], which also repeats its page. *)
Theorem remove_outliers_idempotent st :
  remove_outliers (remove_outliers st) = remove_outliers st
  ∧ (∀ old, remove_outliers (mkState (X st) (y st) old) = remove_outliers st)
  ∧ before_request (before_request st) = before_request st
  ∧ outlier_removal (outlier_removal st).1 = outlier_removal st
  ∧ serve outlier_removal (serve outlier_removal st).1
    = serve outlier_removal st.
Proof. by split_and!. Qed.

(** C10.  [remove_outliers] assigns [X_no_outliers] only: the feature
    table [X] and the target series [y] are the same after it, also
    through [before_request] and [/outlier_removal]. *)
Theorem remove_outliers_leaves_X_and_y st :
  X (remove_outliers st) = X st
  ∧ y (remove_outliers st) = y st
  ∧ X (before_request st) = X st
  ∧ y (before_request st) = y st
  ∧ X (outlier_removal st).1 = X st
  ∧ y (outlier_removal st).1 = y st
  ∧ remove_outliers st
    = mkState (X st) (y st)
        (Some (without_outliers (select_dtypes_number (X st)))).
Proof. by split_and!. Qed.
End outlier_routes.

(** ** Filling missing values *)

Section fill_missing.
Implicit Types (df : DataFrame) (r : row) (c : cell) (st : State).

Lemma no_filter_length {A} (P : A → Prop) `{!∀ x, Decision (P x)}
    (l : list A) :
  (∀ x, x ∈ l → ¬ P x) → length (filter P l) = 0.
Proof.
  induction l as [|x l IH]; intros Hl; [done|].
  rewrite filter_cons_False by (apply Hl; by left).
  apply IH. intros x' ?. apply Hl. by right.
Qed.

Lemma column_means_lookup df j :
  dtypes df !! j = Some Float64 →
  column_means df !! j = Some (mean (feature_column j (rows df))).
Proof.
  intros Hj. unfold column_means. by rewrite list_lookup_imap, Hj.
Qed.

(** Cell [(i, j)] of the filled table. *)
Lemma fillna_mean_lookup df i j r c :
  rows df !! i = Some r → r !! j = Some c →
  ∃ r', rows (fillna_mean df) !! i = Some r'
        ∧ length r' = length r
        ∧ r' !! j = Some (fillna_cell (default Object (dtypes df !! j))
                            (default None (column_means df !! j)) c).
Proof.
  intros Hi Hj. exists (fillna_row (dtypes df) (column_means df) r).
  unfold fillna_mean; cbn [rows]. rewrite list_lookup_fmap, Hi.
  unfold fillna_row. by rewrite length_imap, list_lookup_imap, Hj.
Qed.

Lemma elem_of_fillna_mean df r' :
  r' ∈ rows (fillna_mean df) →
  ∃ r, r ∈ rows df ∧ r' = fillna_row (dtypes df) (column_means df) r.
Proof.
  unfold fillna_mean; simpl. rewrite list_elem_of_fmap. naive_solver.
Qed.

(** A column with a number in it has a mean. *)
Lemma mean_defined (l : list row) j r v :
  r ∈ l → r !! j = Some (Num v) → is_Some (mean (feature_column j l)).
Proof.
  intros Hr Hj. unfold mean.
  assert (v ∈ dropna (feature_column j l)) as Hv.
  { unfold dropna, feature_column. apply list_elem_of_omap.
    exists (Some v). split; [|done]. apply list_elem_of_fmap.
    exists r. by rewrite Hj. }
  destruct (dropna _); [by apply elem_of_nil in Hv|done].
Qed.

(** A column without a number has none. *)
Lemma mean_undefined (l : list row) j :
  (∀ r v, r ∈ l → r !! j ≠ Some (Num v)) → mean (feature_column j l) = None.
Proof.
  intros Hl. unfold mean.
  destruct (dropna _) as [|v xs] eqn:Hd; [done|].
  assert (v ∈ dropna (feature_column j l)) as Hv by (rewrite Hd; by left).
  unfold dropna, feature_column in Hv.
  apply list_elem_of_omap in Hv as (x & Hx & ->).
  apply list_elem_of_fmap in Hx as (r & Hx & Hr).
  destruct (r !! j) as [[w| |]|] eqn:Hj; simplify_eq/=.
  by destruct (Hl r w Hr).
Qed.



(** C9.  A numeric column without any number has no mean, and
    [/handle_missing_values] leaves every cell of that column as it
    was, its missing entries included; the handler still returns its
    page. *)
Theorem handle_missing_values_empty_column st j :
  let df := X st in
  let st' := (handle_missing_values st).1 in
  dtypes df !! j = Some Float64 →
  (∀ r v, r ∈ rows df → r !! j ≠ Some (Num v)) →
  mean (feature_column j (rows df)) = None
  ∧ (∀ i r, rows df !! i = Some r →
       ∃ r', rows (X st') !! i = Some r' ∧ r' !! j = r !! j)
  ∧ length (rows (X st')) = length (rows df)
  ∧ (handle_missing_values st).2
    = Html "<html><body><p>Missing values handled</p></body></html>".
Proof.
  intros df st' Hd Hnone.
  pose proof (mean_undefined (rows df) j Hnone) as Hm.
  split_and!; [done| |by unfold st'; simpl; rewrite length_map|done].
  intros i r Hi. destruct (r !! j) as [c|] eqn:Hj.
  - destruct (fillna_mean_lookup df i j r c Hi Hj) as (r' & Hr' & _ & Hc).
    exists r'. split; [done|].
    rewrite Hd, column_means_lookup, Hm in Hc by done. rewrite Hc.
    by destruct c.
  - exists (fillna_row (dtypes df) (column_means df) r). split.
    + unfold st', handle_missing_values, fillna_mean; cbn [X rows fst].
      fold df. by rewrite list_lookup_fmap, Hi.
    + unfold fillna_row. by rewrite list_lookup_imap, Hj.
Qed.
End fill_missing.

Section fill_missing_examples.

Lemma handle_missing_values_empty_column_witness :
  let st := state_of empty_column_table in
  dtypes (X st) !! 0 = Some Float64
  ∧ (∀ r v, r ∈ rows (X st) → r !! 0 ≠ Some (Num v))
  ∧ mean (feature_column 0 (rows (X st))) = None
  ∧ length (rows (X (handle_missing_values st).1)) = 2.
Proof.
  intros st.
  assert (∀ r v, r ∈ rows (X st) → r !! 0 ≠ Some (Num v)) as Hnone.
  { intros r v Hr. simpl in Hr.
    apply elem_of_cons in Hr as [->|Hr]; [done|].
    apply elem_of_cons in Hr as [->|Hr]; [done|].
    by apply elem_of_nil in Hr. }
  pose proof (handle_missing_values_empty_column st 0 eq_refl Hnone) as H.
  split; [reflexivity|]. split; [exact Hnone|].
  split; [exact (proj1 H)|exact (proj1 (proj2 (proj2 H)))].
Defined.

(** The column [1, NaN, 3] becomes [1, 2, 3]. *)
Example fill_missing_gap :
  rows (X (serve handle_missing_values (state_of gap_table)).1)
  = [[num 1]; [num 2]; [num 3]].
Proof. refine (bool_decide_unpack _ _). vm_compute. exact I. Qed.

(** The column [NaN, NaN] stays as it is. *)
Example fill_missing_empty_column :
  X (serve handle_missing_values (state_of empty_column_table)).1
  = empty_column_table.
Proof. reflexivity. Qed.
End fill_missing_examples.

(** ** The correlation matrix *)

Section correlation.
Implicit Types (N : NumFrame) (xs ys : list (option Qc)) (st : State).

Lemma complete_pairs_swap xs ys :
  complete_pairs ys xs = map (fun p => (p.2, p.1)) (complete_pairs xs ys).
Proof.
  revert ys; induction xs as [|[x|] xs IH]; intros [|[y|] ys]; simpl;
    try done; by rewrite IH.
Qed.


Lemma covsum_swap mx my (ps : list (Qc * Qc)) :
  covsum my mx (map (fun p => (p.2, p.1)) ps) = covsum mx my ps.
Proof.
  unfold covsum. induction ps as [|[a b] ps IH]; simpl in *; [done|].
  rewrite IH. ring.
Qed.

(** The coefficient does not depend on the order of the two columns. *)
Lemma pearson_sym xs ys : pearson xs ys = pearson ys xs.
Proof.
  unfold pearson. rewrite (complete_pairs_swap xs ys).
  generalize (complete_pairs xs ys) as ps; intros ps.
  assert (map fst (map (fun p : Qc * Qc => (p.2, p.1)) ps) = map snd ps)
    as Hfst by (rewrite map_map; by apply map_ext).
  assert (map snd (map (fun p : Qc * Qc => (p.2, p.1)) ps) = map fst ps)
    as Hsnd by (rewrite map_map; by apply map_ext).
  unfold pearson_pairs. rewrite Hfst, Hsnd, length_map, covsum_swap.
  set (ssx := ssqdm _ (map fst ps)). set (ssy := ssqdm _ (map snd ps)).
  by rewrite (Qcmult_comm ssy ssx).
Qed.

Lemma var_Some xs v :
  var xs = Some v →
  2 ≤ length (dropna xs)
  ∧ v = (ssqdm (total (dropna xs) / Qc_of_nat (length (dropna xs)))
               (dropna xs)
         / Qc_of_nat (length (dropna xs) - 1))%Qc.
Proof.
  unfold var. destruct (dropna xs) as [|x [|x' l]]; intros Hv;
    simplify_eq/=. split; [lia|done].
Qed.



Lemma entry_corr N i j :
  entry (corr N) i j
  = if decide (i < width N ∧ j < width N)
    then Some (pearson (column i (body N)) (column j (body N)))
    else None.
Proof.
  unfold entry, corr. rewrite list_lookup_fmap.
  destruct (decide (i < width N)) as [Hi|Hi].
  - rewrite lookup_seq_lt by done; simpl. rewrite list_lookup_fmap.
    destruct (decide (j < width N)) as [Hj|Hj].
    + rewrite lookup_seq_lt by done; simpl. by rewrite decide_True.
    + rewrite lookup_seq_ge by lia; simpl. rewrite decide_False; [done|lia].
  - rewrite lookup_seq_ge by lia; simpl. rewrite decide_False; [done|lia].
Qed.


End correlation.


(** * Further properties of the routes *)

(** ** What the outlier filter keeps *)

Section filter_shape.
Implicit Types (N : NumFrame) (r : list (option Qc)) (st : State).

Lemma lt_3_is_Some N r j : lt_3 (z_cell N r j) = true → is_Some (at_col j r).
Proof.
  unfold z_cell, zscore_sq. destruct (at_col j r); [by eexists|done].
Qed.

Lemma elem_of_without_outliers N r :
  r ∈ body (without_outliers N) →
  r ∈ body N ∧ ∀ j, j < width N → lt_3 (z_cell N r j) = true.
Proof.
  unfold without_outliers; simpl. rewrite elem_of_select_mask.
  intros (i & Hi & Hm). split; [by eapply list_elem_of_lookup_2|].
  rewrite (all_lt_3_lookup N i r Hi) in Hm. apply row_kept. by simplify_eq.
Qed.

(** A column without a finite z-score in any row empties the table. *)
Lemma undefined_column_excludes_all N j :
  j < width N → (∀ r, z_cell N r j = None) →
  select_mask (body N) (all_lt_3 N) = [].
Proof.
  intros Hj Hz. apply select_mask_all_false.
  unfold all_lt_3, z_scores. rewrite !Forall_fmap.
  apply Forall_true. intros r; simpl.
  apply row_dropped. exists j. split; [done|]. by left.
Qed.

Lemma select_dtypes_number_rows df :
  length (body (select_dtypes_number df)) = length (rows df).
Proof. simpl. by rewrite length_map. Qed.

(** The rows of [X_no_outliers] hold a number in every column: a row
    with a missing numeric cell is never kept. *)
Theorem remove_outliers_keeps_no_missing_cell st :
  let N := select_dtypes_number (X st) in
  ∃ K, X_no_outliers (remove_outliers st) = Some K
       ∧ width K = width N
       ∧ Forall (fun r => ∀ j, j < width N → is_Some (at_col j r)) (body K).
Proof.
  intros N. exists (without_outliers N). split_and!; [done|done|].
  apply Forall_forall. intros r Hr j Hj.
  apply elem_of_without_outliers in Hr as [_ Hlt].
  by apply (lt_3_is_Some N), Hlt.
Qed.

(** [/outlier_removal] keeps a subsequence of the rows of the numeric
    projection, with the same columns, and the count on its page is the
    number of rows of [X] that are not in [X_no_outliers]: kept and
    removed rows add up to the rows of [X]. *)
Theorem outlier_removal_count_adds_up st :
  let N := select_dtypes_number (X st) in
  ∃ K, X_no_outliers (outlier_removal st).1 = Some K
       ∧ width K = width N
       ∧ sublist (body K) (body N)
       ∧ length (body K) + removed_outliers_count st = length (rows (X st))
       ∧ (outlier_removal st).2
         = Html ("<html><body><p>Number of outliers removed: "
                 +:+ pretty (length (rows (X st)) - length (body K))
                 +:+ "</p></body></html>").
Proof.
  intros N. exists (without_outliers N).
  pose proof (select_mask_length (body N) (all_lt_3 N)) as Hle.
  pose proof (select_dtypes_number_rows (X st)) as Hrows. fold N in Hrows.
  split_and!; [done|done|apply select_mask_sublist| |].
  - unfold removed_outliers_count. fold N.
    unfold without_outliers; cbn [body]. lia.
  - unfold outlier_removal. fold N. cbn [snd]. by rewrite Hrows.
Qed.

(** A numeric column with fewer than two values has no standard
    deviation, and then no row at all is kept: in particular a table
    with a single row is emptied. *)
Theorem short_column_excludes_every_row st j :
  let N := select_dtypes_number (X st) in
  j < width N →
  length (dropna (column j (body N))) < 2 →
  var (column j (body N)) = None
  ∧ X_no_outliers (remove_outliers st) = Some (mkNumFrame (width N) [])
  ∧ removed_outliers_count st = length (rows (X st)).
Proof.
  intros N Hj Hlen.
  assert (var (column j (body N)) = None) as Hv.
  { unfold var. destruct (dropna _) as [|x [|x' l]]; simpl in *; [done|done|lia]. }
  assert (select_mask (body N) (all_lt_3 N) = []) as Hsel.
  { apply (undefined_column_excludes_all N j Hj). intros r.
    unfold z_cell. rewrite at_col_vars, Hv by done.
    unfold zscore_sq. by destruct (at_col j r), (at_col j (means N)). }
  split_and!; [done| |].
  - unfold remove_outliers, without_outliers. fold N.
    cbn [X_no_outliers]. by rewrite Hsel.
  - unfold removed_outliers_count, without_outliers. fold N.
    cbn [body]. rewrite Hsel. unfold N; simpl. rewrite length_map. lia.
Qed.

Lemma short_column_excludes_every_row_witness :
  let st := state_of single_table in
  let N := select_dtypes_number (X st) in
  0 < width N
  ∧ length (dropna (column 0 (body N))) < 2
  ∧ X_no_outliers (remove_outliers st) = Some (mkNumFrame 1 [])
  ∧ removed_outliers_count st = 1.
Proof.
  intros st N.
  assert (0 < width N) as Hw by (vm_compute; lia).
  assert (length (dropna (column 0 (body N))) < 2) as Hlen
    by (vm_compute; lia).
  split; [exact Hw|]. split; [exact Hlen|].
  exact (proj2 (short_column_excludes_every_row st 0 Hw Hlen)).
Defined.

(** Without any numeric column every row passes the filter
    ([all] over no column is true): [X_no_outliers] has as many rows as
    [X], each without cells, and nothing is counted as removed. *)
Theorem no_numeric_column_keeps_every_row st :
  Forall (fun d => d = Object) (dtypes (X st)) →
  X_no_outliers (remove_outliers st)
    = Some (mkNumFrame 0 (replicate (length (rows (X st))) []))
  ∧ removed_outliers_count st = 0.
Proof.
  intros Hobj.
  assert (∀ cs : list cell, select_row (dtypes (X st)) cs = []) as Hrow.
  { induction Hobj as [|d ds -> _ IH]; intros [|c cs]; simpl; auto. }
  assert (length (filter (fun d => d = Float64) (dtypes (X st))) = 0) as Hw.
  { apply no_filter_length. intros d Hd.
    rewrite Forall_forall in Hobj. by rewrite (Hobj d Hd). }
  assert (body (select_dtypes_number (X st))
          = replicate (length (rows (X st))) []) as Hbody.
  { simpl. symmetry. apply replicate_as_Forall_2; [by rewrite length_map|].
    apply Forall_fmap, Forall_true. intros cs; simpl. by rewrite Hrow. }
  assert (without_outliers (select_dtypes_number (X st))
          = mkNumFrame 0 (replicate (length (rows (X st))) [])) as Hkeep.
  { unfold without_outliers, all_lt_3, z_scores, z_row.
    rewrite Hbody. cbn [width select_dtypes_number]. rewrite Hw. simpl.
    f_equal. generalize (length (rows (X st))) as n.
    induction n as [|n IH]; simpl; by f_equal. }
  split.
  - unfold remove_outliers. by rewrite Hkeep.
  - unfold removed_outliers_count. rewrite Hkeep, Hbody; simpl.
    rewrite length_replicate. lia.
Qed.

Lemma no_numeric_column_keeps_every_row_witness :
  let st := state_of object_table in
  Forall (fun d => d = Object) (dtypes (X st))
  ∧ X_no_outliers (remove_outliers st) = Some (mkNumFrame 0 [[]; []])
  ∧ removed_outliers_count st = 0.
Proof.
  intros st.
  assert (Forall (fun d => d = Object) (dtypes (X st))) as Hobj
    by (repeat constructor).
  split; [exact Hobj|].
  exact (no_numeric_column_keeps_every_row st Hobj).
Defined.
End filter_shape.

(** ** How large a z-score can be *)

Section z_bound.
Local Open Scope Qc_scope.
Implicit Types (N : NumFrame) (l ds : list Qc) (a d m : Qc).











End z_bound.

Section few_rows.
Implicit Types (N : NumFrame) (r : list (option Qc)) (st : State).

Lemma dropna_length (col : list (option Qc)) :
  length (dropna col) ≤ length col.
Proof.
  unfold dropna. induction col as [|[x|] col IH]; [done| |].
  - apply le_n_S, IH.
  - apply le_S, IH.
Qed.



End few_rows.

(** ** Counting duplicates and missing entries *)

Section counts.
Implicit Types (l : list (list cell)) (df : DataFrame) (st : State).

Lemma count_true_cons (b : bool) (mask : list bool) :
  count_true (b :: mask) = (if b then 1 else 0) + count_true mask.
Proof.
  unfold count_true. rewrite filter_cons.
  destruct b; [by rewrite decide_True|by rewrite decide_False].
Qed.

Lemma count_true_select {A} (xs : list A) (mask : list bool) :
  length mask = length xs →
  count_true mask + length (select_mask xs (map negb mask)) = length xs.
Proof.
  revert mask; induction xs as [|x xs IH]; intros [|b mask] Hlen;
    simplify_eq/=; [done|].
  specialize (IH mask Hlen). rewrite count_true_cons.
  destruct b; simpl; lia.
Qed.

Lemma filter_length_sublist {A} (P : A → Prop) `{!∀ x, Decision (P x)}
    (l1 l2 : list A) :
  sublist l1 l2 → length (filter P l1) ≤ length (filter P l2).
Proof.
  induction 1 as [|x l1 l2 _ IH|x l1 l2 _ IH]; [done| |].
  - rewrite !filter_cons. destruct (decide (P x)); simpl; lia.
  - rewrite filter_cons. destruct (decide (P x)); simpl; lia.
Qed.

Lemma sublist_same_length {A} (l1 l2 : list A) :
  sublist l1 l2 → length l2 ≤ length l1 → l1 = l2.
Proof.
  induction 1 as [|x l1 l2 _ IH|x l1 l2 Hsub IH]; simpl; intros Hlen.
  - done.
  - f_equal. apply IH. lia.
  - apply sublist_length in Hsub. lia.
Qed.

(** The number that [/remove_duplicates] computes into
    [original_duplicates_count] is the number of rows the route takes
    out of [X]: rows kept and rows counted add up to the rows before. *)
Theorem remove_duplicates_count_is_rows_removed st :
  let st' := (remove_duplicates st).1 in
  length (rows (X st')) + original_duplicates_count st
  = length (rows (X st))
  ∧ (original_duplicates_count st = 0 ↔ X st' = X st)
  ∧ y st' = y st
  ∧ X_no_outliers st' = X_no_outliers st.
Proof.
  intros st'.
  pose proof (count_true_select (rows (X st)) (duplicated (rows (X st)))
                (duplicated_from_length [] _)) as Hsum.
  split_and!; [| |done|done].
  - unfold st', original_duplicates_count; simpl.
    unfold drop_duplicates_rows. lia.
  - unfold original_duplicates_count, st'; simpl. split.
    + intros Hz. destruct (X st) as [ds l]; unfold drop_duplicates; simpl in *.
      f_equal. unfold drop_duplicates_rows.
      pose proof (select_mask_sublist l (map negb (duplicated l))) as Hsub.
      apply sublist_same_length in Hsub; [done|]. lia.
    + intros HX. apply (f_equal rows) in HX; simpl in HX.
      unfold drop_duplicates_rows in HX. rewrite HX in Hsum. lia.
Qed.

(** Dropping duplicated rows never raises the count of missing entries
    of a column that [/missing_values] shows, and no count exceeds the
    number of rows. *)
Theorem remove_duplicates_missing_counts st j n :
  let st' := (remove_duplicates st).1 in
  missing_values_counts (X st) !! j = Some n →
  ∃ n', missing_values_counts (X st') !! j = Some n'
        ∧ n' ≤ n ∧ n ≤ length (rows (X st))
        ∧ n' ≤ length (rows (X st')).
Proof.
  intros st'. unfold missing_values_counts. rewrite list_lookup_imap.
  destruct (dtypes (X st) !! j) as [d|] eqn:Hd; [|done].
  intros Hn; simplify_eq/=. rewrite list_lookup_imap, Hd; simpl.
  eexists; split; [done|]. unfold isnull_sum. split_and!.
  - apply filter_length_sublist, select_mask_sublist.
  - apply length_filter.
  - apply length_filter.
Qed.

Lemma remove_duplicates_missing_counts_witness :
  let st := state_of (mkDataFrame [Float64] [[NaN]; [NaN]; [num 1]]) in
  missing_values_counts (X st) !! 0 = Some 2
  ∧ ∃ n', missing_values_counts (X (remove_duplicates st).1) !! 0 = Some n'
          ∧ n' ≤ 2 ∧ 2 ≤ 3 ∧ n' ≤ length (rows (X (remove_duplicates st).1)).
Proof.
  intros st.
  assert (missing_values_counts (X st) !! 0 = Some 2) as H by reflexivity.
  split; [exact H|].
  exact (remove_duplicates_missing_counts st 0 2 H).
Defined.
End counts.

(** ** What filling leaves alone *)

Section fill_frame.
Local Open Scope Qc_scope.
Implicit Types (l : list (list cell)) (df : DataFrame) (st : State)
  (r : list cell) (c : cell) (d : dtype) (m : option Qc).

Lemma fillna_row_lookup (ds : list dtype) (ms : list (option Qc)) r j :
  fillna_row ds ms r !! j
  = fillna_cell (default Object (ds !! j)) (default None (ms !! j)) <$> r !! j.
Proof. unfold fillna_row. by rewrite list_lookup_imap. Qed.

Lemma fillna_cell_NaN d m c :
  fillna_cell d m c = NaN ↔ c = NaN ∧ (d = Object ∨ m = None).
Proof. destruct d, c, m; simpl; naive_solver. Qed.

Lemma fillna_cell_other d m c :
  d ≠ Float64 ∨ c ≠ NaN ∨ m = None → fillna_cell d m c = c.
Proof. destruct d, c, m; simpl; naive_solver. Qed.

Lemma filter_fmap_length {A B} (f : A → B) (P : B → Prop)
    `{!∀ x, Decision (P x)} (xs : list A) :
  length (filter P (f <$> xs)) = length (filter (fun x => P (f x)) xs).
Proof.
  induction xs as [|x xs IH]; [done|]. rewrite fmap_cons, !filter_cons.
  destruct (decide (P (f x))); simpl; by rewrite IH.
Qed.

(** The fill value that column [j] gets. *)
Lemma column_fill_value df j :
  default None (column_means df !! j)
  = match dtypes df !! j with
    | Some Float64 => mean (feature_column j (rows df))
    | _ => None
    end.
Proof.
  unfold column_means. rewrite list_lookup_imap.
  by destruct (dtypes df !! j) as [[]|].
Qed.

(** [/handle_missing_values] changes cells only: the dtypes, the number
    of rows and of cells per row stay; every cell outside the numeric
    columns and every cell that is not missing stays; [y] stays, and so
    does [X_no_outliers], which is not recomputed for the new [X]. *)
Theorem handle_missing_values_changes_missing_numeric_cells_only st :
  let df := X st in
  let st' := (handle_missing_values st).1 in
  dtypes (X st') = dtypes df
  ∧ y st' = y st
  ∧ X_no_outliers st' = X_no_outliers st
  ∧ length (rows (X st')) = length (rows df)
  ∧ ∀ i r, rows df !! i = Some r →
      ∃ r', rows (X st') !! i = Some r'
            ∧ length r' = length r
            ∧ ∀ j, dtypes df !! j ≠ Some Float64 ∨ r !! j ≠ Some NaN →
                   r' !! j = r !! j.
Proof.
  intros df st'. split_and!; [done|done|done| |].
  - unfold st'; simpl. by rewrite length_map.
  - intros i r Hi. exists (fillna_row (dtypes df) (column_means df) r).
    split_and!.
    + unfold st', handle_missing_values, fillna_mean; cbn [X rows fst].
      fold df. by rewrite list_lookup_fmap, Hi.
    + unfold fillna_row. by rewrite length_imap.
    + intros j Hj. rewrite fillna_row_lookup.
      destruct (r !! j) as [c|] eqn:Hc; [simpl|done]. f_equal.
      apply fillna_cell_other.
      destruct (dtypes df !! j) as [[]|] eqn:Hd; simpl; [|by left..].
      right; left. intros ->. by destruct Hj.
Qed.

(** The counts of [/missing_values] after [/handle_missing_values]: the
    count of a numeric column that holds a number becomes 0, every other
    count (object columns, numeric columns without any number) is as
    before. *)
Theorem handle_missing_values_missing_counts st j n :
  let df := X st in
  let st' := (handle_missing_values st).1 in
  missing_values_counts df !! j = Some n →
  missing_values_counts (X st') !! j
  = Some (if decide (dtypes df !! j = Some Float64
                     ∧ is_Some (mean (feature_column j (rows df))))
          then 0%nat else n).
Proof.
  intros df st'. unfold missing_values_counts. rewrite !list_lookup_imap.
  change (dtypes (X st')) with (dtypes df).
  destruct (dtypes df !! j) as [d|] eqn:Hd; [simpl|done].
  intros [= <-]. f_equal. unfold isnull_sum.
  change (rows (X st')) with
    (fillna_row (dtypes df) (column_means df) <$> rows df).
  rewrite filter_fmap_length.
  pose proof (column_fill_value df j) as Hfill. rewrite Hd in Hfill.
  case_decide as Hdec.
  - destruct Hdec as [[= ->] [m Hm]].
    apply no_filter_length. intros r _.
    rewrite fillna_row_lookup. fold df. rewrite Hd, Hfill, Hm; simpl.
    destruct (r !! j) as [[]|]; naive_solver.
  - f_equal. apply list_filter_iff. intros r.
    rewrite fillna_row_lookup. fold df. rewrite Hd, Hfill; simpl.
    destruct (r !! j) as [c|]; [simpl|done].
    rewrite (inj_iff Some), fillna_cell_NaN.
    destruct d; [|naive_solver].
    destruct (mean (feature_column j (rows df))) as [m|] eqn:Hm;
      [|naive_solver].
    destruct Hdec. by split; [|eexists].
Qed.

Lemma handle_missing_values_missing_counts_witness :
  let st := state_of gap_table in
  missing_values_counts (X st) !! 0%nat = Some 1%nat
  ∧ missing_values_counts (X (handle_missing_values st).1) !! 0%nat
    = Some 0%nat.
Proof.
  intros st.
  assert (missing_values_counts (X st) !! 0%nat = Some 1%nat) as H
    by reflexivity.
  split; [exact H|].
  exact (handle_missing_values_missing_counts st 0 1 H).
Defined.
End fill_frame.

Section fill_mean.
Local Open Scope Qc_scope.
Implicit Types (l : list (list cell)) (df : DataFrame) (st : State)
  (r : list cell) (m : Qc).






End fill_mean.

(** ** Start-up and the request hook *)

Section startup.
Implicit Types (l : list (list cell)) (df F : DataFrame) (st : State)
  (r : list cell) (t : list string).

Lemma mean_None_no_number l j r v :
  mean (feature_column j l) = None → r ∈ l → r !! j ≠ Some (Num v).
Proof.
  intros Hm Hr Hj. destruct (mean_defined l j r v Hr Hj) as [m Hm'].
  by rewrite Hm in Hm'.
Qed.

(** A column with a mean has no missing entry after the fill. *)
Lemma fillna_mean_no_missing df j r' :
  dtypes df !! j = Some Float64 →
  is_Some (mean (feature_column j (rows df))) →
  r' ∈ rows (fillna_mean df) → r' !! j ≠ Some NaN.
Proof.
  intros Hd [m Hm] Hr'. apply elem_of_fillna_mean in Hr' as (r & _ & ->).
  rewrite fillna_row_lookup, column_fill_value, Hd, Hm; simpl.
  destruct (r !! j) as [[]|]; naive_solver.
Qed.

(** A column without a mean is left as it is. *)
Lemma fillna_mean_no_number df j r' v :
  mean (feature_column j (rows df)) = None →
  r' ∈ rows (fillna_mean df) → r' !! j ≠ Some (Num v).
Proof.
  intros Hm Hr'. apply elem_of_fillna_mean in Hr' as (r & Hr & ->).
  rewrite fillna_row_lookup, column_fill_value.
  assert (match dtypes df !! j with
          | Some Float64 => mean (feature_column j (rows df))
          | _ => None
          end = None) as -> by (by destruct (dtypes df !! j) as [[]|]).
  pose proof (mean_None_no_number (rows df) j r v Hm Hr) as Hn.
  destruct (r !! j) as [c|]; [simpl|done].
  rewrite fillna_cell_other by auto. done.
Qed.

(** Filling changes nothing when every numeric column is either
    complete or without any number. *)
Lemma fillna_mean_settled df :
  (∀ j, dtypes df !! j = Some Float64 →
     (∀ r, r ∈ rows df → r !! j ≠ Some NaN)
     ∨ (∀ r v, r ∈ rows df → r !! j ≠ Some (Num v))) →
  fillna_mean df = df.
Proof.
  intros Hcols.
  assert (∀ r, r ∈ rows df →
            fillna_row (dtypes df) (column_means df) r = r) as Hrow.
  { intros r Hr. apply list_eq; intros j. rewrite fillna_row_lookup.
    destruct (r !! j) as [c|] eqn:Hj; [simpl|done]. f_equal.
    apply fillna_cell_other. rewrite column_fill_value.
    destruct (dtypes df !! j) as [[]|] eqn:Hd; simpl; [|by left..].
    destruct (Hcols j Hd) as [Hfull|Hnone].
    - right; left. intros ->. by destruct (Hfull r Hr).
    - right; right. by apply mean_undefined. }
  destruct df as [ds l]; unfold fillna_mean; simpl in *. f_equal.
  trans (Datatypes.id <$> l); [|apply list_fmap_id].
  apply list_fmap_ext. intros i r Hi; simpl.
  apply Hrow. by eapply list_elem_of_lookup_2.
Qed.

Lemma elem_of_drop_duplicates_rows l r :
  r ∈ drop_duplicates_rows l ↔ r ∈ l.
Proof.
  change (drop_duplicates_rows l) with (drop_from [] l).
  rewrite elem_of_drop_from. set_solver.
Qed.

(** The table that the module body leaves in [X]: the columns of the
    features, no two equal rows, no more rows than the features had, no
    missing entry in a numeric column that held a number; the targets
    are taken over as they are (rows dropped from [X] keep their entry
    in [y]) and [X_no_outliers] is still [None]. *)
Theorem load_prepares_table F t :
  let st := load F t in
  dtypes (X st) = dtypes F
  ∧ NoDup (rows (X st))
  ∧ length (rows (X st)) ≤ length (rows F)
  ∧ (∀ j, dtypes F !! j = Some Float64 →
       is_Some (mean (feature_column j (rows F))) →
       isnull_sum j (rows (X st)) = 0)
  ∧ (∀ j, mean (feature_column j (rows F)) = None →
       mean (feature_column j (rows (X st))) = None)
  ∧ y st = t
  ∧ X_no_outliers st = None.
Proof.
  intros st. split_and!; [done| | | | |done|done].
  - apply drop_from_NoDup.
  - unfold st, load, drop_duplicates; simpl.
    etrans; [apply select_mask_length|]. by rewrite length_map.
  - intros j Hd Hm. apply no_filter_length. intros r' Hr'.
    change (rows (X st)) with (drop_duplicates_rows (rows (fillna_mean F)))
      in Hr'.
    apply (proj1 (elem_of_drop_duplicates_rows _ _)) in Hr'.
    exact (fillna_mean_no_missing F j r' Hd Hm Hr').
  - intros j Hm. apply mean_undefined. intros r' v Hr'.
    change (rows (X st)) with (drop_duplicates_rows (rows (fillna_mean F)))
      in Hr'.
    apply (proj1 (elem_of_drop_duplicates_rows _ _)) in Hr'.
    exact (fillna_mean_no_number F j r' v Hm Hr').
Qed.

(** Right after start-up the two preparation routes find nothing to do:
    [/remove_duplicates] counts no duplicate and [/handle_missing_values]
    fills no cell; both leave [X] as loaded. *)
Theorem load_leaves_nothing_to_prepare F t :
  let st := load F t in
  original_duplicates_count st = 0
  ∧ X (remove_duplicates st).1 = X st
  ∧ X (handle_missing_values st).1 = X st
  ∧ X (serve remove_duplicates st).1 = X st
  ∧ X (serve handle_missing_values st).1 = X st.
Proof.
  intros st.
  assert (NoDup (rows (X st))) as Hnd by apply drop_from_NoDup.
  destruct (drop_duplicates_rows_fixed _ Hnd) as [Hfix Hcount].
  assert (drop_duplicates (X st) = X st) as Hdd.
  { unfold drop_duplicates. rewrite Hfix. by destruct (X st). }
  assert (fillna_mean (X st) = X st) as Hfill.
  { apply fillna_mean_settled. intros j Hd.
    change (dtypes (X st)) with (dtypes F) in Hd.
    destruct (mean (feature_column j (rows F))) as [m|] eqn:Hm.
    - left. intros r Hr. change (rows (X st))
        with (drop_duplicates_rows (rows (fillna_mean F))) in Hr.
      apply (proj1 (elem_of_drop_duplicates_rows _ _)) in Hr.
      apply (fillna_mean_no_missing F j r Hd); [by rewrite Hm|done].
    - right. intros r v Hr. change (rows (X st))
        with (drop_duplicates_rows (rows (fillna_mean F))) in Hr.
      apply (proj1 (elem_of_drop_duplicates_rows _ _)) in Hr.
      exact (fillna_mean_no_number F j r v Hm Hr). }
  by split_and!.
Qed.

End startup.

(** ** The pairs of the scatter plot *)

Section scatter.
Context {A : Type}.
Implicit Types (cols : list A) (a b : A).

(** The pairs drawn are the pairs of a column with a later column. *)
Lemma elem_of_scatter_pairs cols a b :
  (a, b) ∈ scatter_pairs cols ↔
  ∃ i j, i < j ∧ cols !! i = Some a ∧ cols !! j = Some b.
Proof.
  unfold scatter_pairs. rewrite list_elem_of_join. split.
  - intros (ps & Hab & Hps).
    apply elem_of_lookup_imap in Hps as (i & c1 & -> & Hi).
    apply list_elem_of_join in Hab as (qs & Hab & Hqs).
    apply elem_of_lookup_imap in Hqs as (j & c2 & -> & Hj).
    case_bool_decide; [|by apply elem_of_nil in Hab].
    apply list_elem_of_singleton in Hab. simplify_eq. by exists i, j.
  - intros (i & j & Hij & Hi & Hj).
    exists (mjoin (imap (fun j col2 =>
              if bool_decide (i < j) then [(a, col2)] else []) cols)).
    split.
    + apply list_elem_of_join. exists [(a, b)]. split; [by left|].
      apply elem_of_lookup_imap. exists j, b.
      split; [by rewrite bool_decide_eq_true_2|done].
    + apply elem_of_lookup_imap. by exists i, a.
Qed.

(** The inner loop for the outer index [i], started at index [k]. *)
Lemma inner_loop_length (col1 : A) i k (l : list A) :
  length (mjoin (imap (fun j col2 =>
            if bool_decide (i < k + j) then [(col1, col2)] else []) l))
  = length l - (S i - k).
Proof.
  revert k; induction l as [|x l IH]; intros k; [done|].
  rewrite imap_cons; csimpl. rewrite length_app.
  rewrite (imap_ext _ (fun j col2 =>
             if bool_decide (i < S k + j) then [(col1, col2)] else []))
    by (intros j y _; simpl; by rewrite Nat.add_succ_r).
  rewrite IH, Nat.add_0_r. case_bool_decide; simpl; lia.
Qed.

Lemma outer_loop_length n (inner : nat → A → list (A * A)) k (l : list A) :
  (∀ i c, length (inner i c) = n - S i) →
  k + length l ≤ n →
  2 * length (mjoin (imap (fun i c => inner (k + i) c) l))
  + length l * (2 * k + length l + 1)
  = 2 * n * length l.
Proof.
  intros Hinner. revert k; induction l as [|x l IH]; intros k Hk; [simpl; lia|].
  rewrite imap_cons; csimpl. rewrite length_app, Hinner, Nat.add_0_r.
  rewrite (imap_ext _ (fun i c => inner (S k + i) c))
    by (intros j y _; simpl; by rewrite Nat.add_succ_r).
  simpl in Hk. specialize (IH (S k) ltac:(lia)). nia.
Qed.

Lemma scatter_pairs_length cols :
  2 * length (scatter_pairs cols) = length cols * (length cols - 1).
Proof.
  pose proof (outer_loop_length (length cols)
    (fun i col1 => mjoin (imap (fun j col2 =>
       if bool_decide (i < j) then [(col1, col2)] else []) cols))
    0 cols) as Hlen.
  assert (2 * length (scatter_pairs cols)
          + length cols * (2 * 0 + length cols + 1)
          = 2 * length cols * length cols) as Hsum.
  { apply Hlen; [|simpl; lia].
    intros i c. pose proof (inner_loop_length c i 0 cols) as Hin.
    simpl in Hin. rewrite Hin. lia. }
  nia.
Qed.

Lemma scatter_pairs_one_order cols a b :
  NoDup cols → (a, b) ∈ scatter_pairs cols →
  a ≠ b ∧ (b, a) ∉ scatter_pairs cols.
Proof.
  intros Hnd Hab.
  apply elem_of_scatter_pairs in Hab as (i & j & Hij & Hi & Hj). split.
  - intros ->. pose proof (NoDup_lookup _ _ _ _ Hnd Hi Hj). lia.
  - intros Hba.
    apply elem_of_scatter_pairs in Hba as (i' & j' & Hij' & Hi' & Hj').
    pose proof (NoDup_lookup _ _ _ _ Hnd Hi Hj').
    pose proof (NoDup_lookup _ _ _ _ Hnd Hj Hi'). lia.
Qed.

(** [/bivariate_scatterplot] calls [ax.scatter] exactly for the pairs of
    a column with a later column: for [n] columns that is
    [n (n - 1) / 2] series; when no label occurs twice, no column is
    drawn against itself and no pair is drawn in both orders. *)
Theorem scatter_pairs_earlier_with_later cols :
  (∀ a b, (a, b) ∈ scatter_pairs cols ↔
     ∃ i j, i < j ∧ cols !! i = Some a ∧ cols !! j = Some b)
  ∧ 2 * length (scatter_pairs cols) = length cols * (length cols - 1)
  ∧ (NoDup cols →
     ∀ a b, (a, b) ∈ scatter_pairs cols →
            a ≠ b ∧ (b, a) ∉ scatter_pairs cols).
Proof.
  split_and!.
  - apply elem_of_scatter_pairs.
  - apply scatter_pairs_length.
  - intros Hnd a b. by apply scatter_pairs_one_order.
Qed.
End scatter.

Section scatter_route.
Implicit Types (df : DataFrame) (ds : list dtype).

Lemma elem_of_numeric_positions ds k x :
  x ∈ mjoin (imap (fun j d => match d with
                              | Float64 => [k + j]
                              | Object => []
                              end) ds)
  ↔ ∃ j, x = k + j ∧ ds !! j = Some Float64.
Proof.
  rewrite list_elem_of_join. split.
  - intros (l & Hx & Hl). apply elem_of_lookup_imap in Hl as (j & d & -> & Hj).
    destruct d; [|by apply elem_of_nil in Hx].
    apply list_elem_of_singleton in Hx. by exists j.
  - intros (j & -> & Hj). exists [k + j]. split; [by left|].
    apply elem_of_lookup_imap. by exists j, Float64.
Qed.

Lemma numeric_positions_shape ds k :
  let ps := mjoin (imap (fun j d => match d with
                                    | Float64 => [k + j]
                                    | Object => []
                                    end) ds) in
  NoDup ps ∧ length ps = length (filter (fun d => d = Float64) ds).
Proof.
  revert k; induction ds as [|d ds IH]; intros k; [split; [constructor|done]|].
  cbv zeta. rewrite imap_cons; csimpl.
  rewrite (imap_ext _ (fun j d => match d with
                                  | Float64 => [S k + j]
                                  | Object => []
                                  end))
    by (intros j y _; simpl; by rewrite Nat.add_succ_r).
  destruct (IH (S k)) as [Hnd Hlen]. cbv zeta in Hnd, Hlen.
  pose proof (elem_of_numeric_positions ds (S k) (k + 0)) as Hin.
  set (L := mjoin (imap _ ds)) in *.
  rewrite filter_cons. destruct d; simpl.
  - split; [|by rewrite Hlen]. constructor; [|done].
    rewrite Hin. intros (j & Hj & _). lia.
  - done.
Qed.

Lemma elem_of_numerical_cols df j :
  j ∈ numerical_cols df ↔ dtypes df !! j = Some Float64.
Proof.
  unfold numerical_cols.
  rewrite (elem_of_numeric_positions (dtypes df) 0 j). naive_solver.
Qed.

(** The series of [/bivariate_scatterplot] for the table [X]: with [w]
    numeric columns there are [w (w - 1) / 2] of them; each pairs two
    different numeric columns, and of two different numeric columns
    exactly one order is drawn. *)
Theorem bivariate_scatterplot_pairs df :
  let ps := scatter_pairs (numerical_cols df) in
  let w := width (select_dtypes_number df) in
  2 * length ps = w * (w - 1)
  ∧ (∀ a b, (a, b) ∈ ps →
       dtypes df !! a = Some Float64 ∧ dtypes df !! b = Some Float64 ∧ a ≠ b)
  ∧ (∀ a b, dtypes df !! a = Some Float64 → dtypes df !! b = Some Float64 →
       a ≠ b →
       ((a, b) ∈ ps ∧ (b, a) ∉ ps) ∨ ((b, a) ∈ ps ∧ (a, b) ∉ ps)).
Proof.
  intros ps w.
  assert (NoDup (numerical_cols df)
          ∧ length (numerical_cols df)
            = length (filter (fun d => d = Float64) (dtypes df)))
    as [Hnd Hlen] by exact (numeric_positions_shape (dtypes df) 0).
  split_and!.
  - unfold ps. rewrite scatter_pairs_length, Hlen. done.
  - intros a b Hab.
    destruct (scatter_pairs_one_order _ a b Hnd Hab) as [Hne _].
    apply elem_of_scatter_pairs in Hab as (i & j & _ & Hi & Hj).
    apply list_elem_of_lookup_2 in Hi, Hj.
    by rewrite <-!elem_of_numerical_cols.
  - intros a b Ha Hb Hne.
    apply elem_of_numerical_cols, list_elem_of_lookup_1 in Ha as [i Hi].
    apply elem_of_numerical_cols, list_elem_of_lookup_1 in Hb as [j Hj].
    assert (i ≠ j) as Hij by (intros ->; congruence).
    destruct (decide (i < j)) as [Hlt|Hge].
    + assert ((a, b) ∈ ps) as Hab
        by (apply elem_of_scatter_pairs; by exists i, j).
      left. split; [done|]. by apply (scatter_pairs_one_order _ a b Hnd).
    + assert ((b, a) ∈ ps) as Hba
        by (apply elem_of_scatter_pairs; exists j, i; split; [lia|done]).
      right. split; [done|]. by apply (scatter_pairs_one_order _ b a Hnd).
Qed.
End scatter_route.

(** ** The numeric projection, column by column *)

Section projection.
Implicit Types (df : DataFrame) (ds : list dtype) (r pre : list cell).

Lemma select_row_positions ds pre r :
  length ds ≤ length r →
  select_row ds r
  = map (fun j => to_float (default NaN ((pre ++ r) !! j)))
        (mjoin (imap (fun j d => match d with
                                 | Float64 => [length pre + j]
                                 | Object => []
                                 end) ds)).
Proof.
  revert pre r; induction ds as [|d ds IH]; intros pre [|c r] Hlen;
    simpl in Hlen; [done|done|lia|].
  rewrite imap_cons; csimpl.
  rewrite (imap_ext _ (fun j d => match d with
                                  | Float64 => [length (pre ++ [c]) + j]
                                  | Object => []
                                  end)).
  2:{ intros j y _; simpl. rewrite length_app; simpl.
      by replace (length pre + 1 + j) with (length pre + S j) by lia. }
  assert (pre ++ c :: r = (pre ++ [c]) ++ r) as Heq
    by (by rewrite <-(assoc_L (++))).
  rewrite map_app, Heq, <-(IH (pre ++ [c]) r) by lia.
  destruct d; simpl; [|done].
  by rewrite <-Heq, Nat.add_0_r, list_lookup_middle.
Qed.

Lemma select_row_numerical_cols df r :
  length (dtypes df) ≤ length r →
  select_row (dtypes df) r
  = map (fun j => to_float (default NaN (r !! j))) (numerical_cols df).
Proof. intros Hlen. exact (select_row_positions (dtypes df) [] r Hlen). Qed.

Lemma projection_cell df r k j :
  length (dtypes df) ≤ length r → numerical_cols df !! k = Some j →
  at_col k (select_row (dtypes df) r) = to_float (default NaN (r !! j)).
Proof.
  intros Hlen Hk. rewrite select_row_numerical_cols by done.
  unfold at_col. by rewrite list_lookup_fmap, Hk.
Qed.

Lemma projection_column df k j :
  Forall (fun r => length (dtypes df) ≤ length r) (rows df) →
  numerical_cols df !! k = Some j →
  column k (body (select_dtypes_number df)) = feature_column j (rows df).
Proof.
  intros Hrect Hk. rewrite Forall_forall in Hrect.
  unfold column, feature_column; cbn [body select_dtypes_number].
  rewrite map_map. apply list_fmap_ext. intros i r Hi; simpl.
  apply list_elem_of_lookup_2 in Hi. by apply projection_cell; auto.
Qed.

Lemma projection_width df :
  width (select_dtypes_number df) = length (numerical_cols df).
Proof. symmetry. exact (proj2 (numeric_positions_shape (dtypes df) 0)). Qed.

(** When every row has a cell for every column, the numeric projection
    holds exactly the numeric columns of the table, in their order:
    its [k]-th column is the column of [X] at the [k]-th numeric
    position, and each of its rows has one cell per numeric column. *)
Theorem select_dtypes_number_columns df :
  let N := select_dtypes_number df in
  Forall (fun r => length (dtypes df) ≤ length r) (rows df) →
  width N = length (numerical_cols df)
  ∧ length (body N) = length (rows df)
  ∧ Forall (fun xs : list (option Qc) => length xs = width N) (body N)
  ∧ ∀ k j, numerical_cols df !! k = Some j →
           dtypes df !! j = Some Float64
           ∧ column k (body N) = feature_column j (rows df).
Proof.
  intros N Hrect.
  pose proof (projection_width df) as Hw. fold N in Hw.
  split_and!; [done|apply select_dtypes_number_rows| |].
  - rewrite Forall_forall in Hrect.
    unfold N; cbn [body select_dtypes_number].
    apply Forall_fmap, Forall_forall. intros r Hr; simpl.
    rewrite select_row_numerical_cols, length_map by auto. by rewrite <-Hw.
  - intros k j Hk. split.
    { apply elem_of_numerical_cols. by eapply list_elem_of_lookup_2. }
    by apply projection_column.
Qed.

Lemma select_dtypes_number_columns_witness :
  let df := scenario_table in
  let N := select_dtypes_number df in
  Forall (fun r => length (dtypes df) ≤ length r) (rows df)
  ∧ width N = 2
  ∧ length (body N) = 4.
Proof.
  intros df N.
  assert (Forall (fun r => length (dtypes df) ≤ length r) (rows df)) as Hrect
    by (repeat constructor).
  pose proof (select_dtypes_number_columns df Hrect) as H.
  split; [exact Hrect|]. split; [exact (proj1 H)|exact (proj1 (proj2 H))].
Defined.
End projection.

(** ** Filling, then filtering *)

Section fill_then_filter.
Implicit Types (df : DataFrame) (st : State) (r : list cell).



End fill_then_filter.

(** ** The range of the correlation coefficient *)

Section correlation_range.
Local Open Scope Qc_scope.
Implicit Types (N : NumFrame) (xs ys : list (option Qc))
  (ps : list (Qc * Qc)).





End correlation_range.

(** ** Where the correlation is not a number *)

Section correlation_nan.
Local Open Scope Qc_scope.
Implicit Types (N : NumFrame) (xs ys : list (option Qc)) (l : list Qc)
  (c m : Qc).

Lemma sum_zero_parts (a b : Qc) : 0 ≤ a → 0 ≤ b → a + b = 0 → a = 0 ∧ b = 0.
Proof.
  intros Ha Hb Hab.
  assert (a ≤ 0) as Ha'.
  { rewrite <-Hab. rewrite <-(Qcplus_0_r a) at 1.
    by apply Qcplus_le_mono_l. }
  assert (a = 0) as -> by (by apply Qcle_antisym).
  split; [done|]. by rewrite Qcplus_0_l in Hab.
Qed.

(** Squared deviations that add up to zero: every value is [m]. *)
Lemma ssqdm_zero m l : ssqdm m l = 0 → Forall (fun x => x = m) l.
Proof.
  unfold ssqdm. induction l as [|x l IH]; simpl; intros Hz; [done|].
  apply sum_zero_parts in Hz as [Hx Hl];
    [|apply Qc_square_nonneg|apply (ssqdm_nonneg m l)].
  constructor; [|by apply IH].
  apply Qcmult_integral in Hx.
  assert (x - m = 0) as Hxm by (by destruct Hx).
  rewrite <-(Qcplus_0_l m), <-Hxm. ring.
Qed.

(** A column whose variance is not a number other than zero holds at
    most one distinct value. *)
Lemma no_spread_constant xs :
  (∀ v, var xs = Some v → v = 0) → ∃ c, Forall (fun x => x = c) (dropna xs).
Proof.
  intros Hv. destruct (var xs) as [v|] eqn:Hvar.
  - specialize (Hv v eq_refl). subst v.
    apply var_Some in Hvar as [Hlen Hvar].
    eexists. apply ssqdm_zero.
    symmetry in Hvar. unfold Qcdiv in Hvar.
    apply Qcmult_integral in Hvar as [Hz|Hz]; [done|].
    assert (0 < Qc_of_nat (length (dropna xs) - 1)) as Hpos
      by (apply Qc_of_nat_pos; lia).
    apply Qcinv_pos in Hpos. rewrite Hz in Hpos.
    by apply (irreflexivity Qclt) in Hpos.
  - unfold var in Hvar. destruct (dropna xs) as [|x [|x' l]]; [| |done].
    + by exists 0.
    + exists x. by repeat constructor.
Qed.

Lemma complete_pairs_fst xs ys c :
  Forall (fun x => x = c) (dropna xs) →
  Forall (fun x => x = c) (map fst (complete_pairs xs ys)).
Proof.
  revert ys; induction xs as [|[x|] xs IH]; intros [|[y|] ys] Hall;
    simpl in *; try done.
  - apply Forall_cons in Hall as [-> Hall]. constructor; auto.
  - apply Forall_cons in Hall as [_ Hall]. auto.
  - auto.
  - auto.
Qed.

Lemma ssqdm_constant l c :
  Forall (fun x => x = c) l →
  ssqdm (total l / Qc_of_nat (length l)) l = 0.
Proof.
  intros Hall.
  assert (l = replicate (length l) c) as Hrep.
  { induction Hall as [|x l -> _ IH]; simpl; by f_equal. }
  destruct l as [|x l]; [done|].
  assert (Qc_of_nat (length (x :: l)) ≠ 0) as Hn.
  { apply not_symmetry, Qclt_not_eq, Qc_of_nat_pos. simpl; lia. }
  rewrite Hrep at 1 3. rewrite total_replicate.
  replace (Qc_of_nat (length (x :: l)) * c / Qc_of_nat (length (x :: l)))
    with c by (by field).
  apply ssqdm_replicate.
Qed.

Lemma pearson_constant_l xs ys c :
  Forall (fun x => x = c) (dropna xs) → pearson xs ys = None.
Proof.
  intros Hall. unfold pearson, pearson_pairs. cbv zeta.
  set (ps := complete_pairs xs ys).
  assert (ssqdm (total (map fst ps) / Qc_of_nat (length ps)) (map fst ps) = 0)
    as ->.
  { rewrite <-(length_map fst ps).
    apply (ssqdm_constant _ c). by apply complete_pairs_fst. }
  case_decide; [done|]. by rewrite Qcmult_0_l, decide_True.
Qed.

(** The coefficient of a column without spread (fewer than two values,
    or the same value throughout) with any column is NaN, in its row and
    in its column of the matrix; so the matrix of a table with fewer
    than two rows, such as an emptied [X_no_outliers], is NaN
    throughout. *)
Theorem correlation_matrix_nan_without_spread N :
  (∀ i j, (i < width N)%nat → (j < width N)%nat →
     (∀ v, var (column i (body N)) = Some v → v = 0) →
     entry (corr N) i j = Some None ∧ entry (corr N) j i = Some None)
  ∧ ((length (body N) < 2)%nat →
     Forall (Forall (fun e => e = None)) (corr N)).
Proof.
  assert (∀ i j, (∀ v, var (column i (body N)) = Some v → v = 0) →
            pearson (column i (body N)) (column j (body N)) = None) as Hrow.
  { intros i j Hv. destruct (no_spread_constant _ Hv) as [c Hc].
    by eapply pearson_constant_l. }
  split.
  - intros i j Hi Hj Hv.
    rewrite !entry_corr, !decide_True by done.
    split; f_equal; [by apply Hrow|].
    rewrite pearson_sym. by apply Hrow.
  - intros Hlen. unfold corr. apply Forall_fmap, Forall_true. intros i; simpl.
    apply Forall_fmap, Forall_true. intros j; simpl.
    apply Hrow. intros v Hv. apply var_Some in Hv as [Hn _].
    pose proof (dropna_length (column i (body N))) as Hd.
    unfold column in Hd. rewrite length_map in Hd. unfold column in Hn. lia.
Qed.
End correlation_nan.
